(** * Block-partitioned correlation matrix (distanceMatrix.ipynb)

    A shallow embedding of the four stages of the notebook:

      stage 1  [f] under [mapPartitionsWithIndex]: tag every partition with
               its index;
      stage 2  [makePairParts] under [flatMap]: replicate block k once per
               partner l, keyed by [str(sorted([k,l]))];
      stage 3  [groupByKey] (the engine's shuffle, not modelled: the stage 4
               function is studied on an arbitrary group);
      stage 4  [getCorrelation], which calls [corr2_coeff].

    Conventions.
    - Python integers are [Z]; [repr] of an integer is its decimal numeral.
    - An RDD is the list of its partitions; [collect] concatenates them.
    - A two-dimensional numpy array is a shape together with an entry
      function.  Shapes and exceptions are those of numpy.
    - Entries are computed in exact arithmetic over the reals.  numpy
      computes them in float64, with rounding, overflow and underflow, and
      np.dot through a routine whose order of accumulation the notebook
      does not fix; none of this is in the model.  What is proved about
      entries is therefore limited to two facts that no rounding can
      change: with fewer than two observations every entry is 0/0, and
      swapping the operands transposes the result.  Everything else below
      is about shapes, keys, record counts and exceptions.
    - Python exceptions are the [Err] results of an error monad. *)

From Stdlib Require Import ZArith String Ascii Bool Lia List.
From Stdlib Require Import Decimal DecimalString DecimalZ.
From Stdlib Require Import Permutation Sorted.
From Stdlib Require Import Reals.
Import ListNotations.

Open Scope string_scope.
Open Scope Z_scope.

(* ------------------------------------------------------------------ *)
(** ** Python built-ins used by the notebook *)

(** [repr] of an integer: decimal digits, with a leading minus sign for
    negative numbers. *)
Definition repr_int (z : Z) : string :=
  NilZero.string_of_int (Z.to_int z).

(** [sep.join(l)] *)
Fixpoint join (sep : string) (l : list string) : string :=
  match l with
  | [] => ""
  | [s] => s
  | s :: rest => s ++ sep ++ join sep rest
  end.

(** [str] of a list of integers: the [repr] of the items, separated by a
    comma and a space, between square brackets. *)
Definition str_list (l : list Z) : string :=
  "[" ++ join ", " (map repr_int l) ++ "]".

Fixpoint insert_sorted (x : Z) (l : list Z) : list Z :=
  match l with
  | [] => [x]
  | y :: t => if y <=? x then y :: insert_sorted x t else x :: l
  end.

(** [sorted(l)] for a list of integers (ascending, stable). *)
Definition sorted (l : list Z) : list Z :=
  fold_left (fun acc x => insert_sorted x acc) l [].

(** [range(lo, hi)] *)
Definition range (lo hi : Z) : list Z :=
  map (fun i => lo + Z.of_nat i) (seq 0 (Z.to_nat (hi - lo))).

(** Exceptions the notebook's functions can raise. *)
Inductive exn : Type :=
| IndexError   (* list index out of range *)
| AxisError    (* reduction along axis 1 of an array that is not 2-D *)
| ValueError.  (* np.dot: shapes not aligned *)

Inductive result (T : Type) : Type :=
| Ok (x : T)
| Err (e : exn).
Arguments Ok {T} x.
Arguments Err {T} e.

Definition bind {T U : Type} (m : result T) (k : T -> result U) : result U :=
  match m with
  | Ok x => k x
  | Err e => Err e
  end.

Notation "x <- m ;; k" := (bind m (fun x => k))
  (at level 61, m at next level, right associativity).

(** [l[i]] for a list and a non-negative index. *)
Definition index {T : Type} (l : list T) (i : nat) : result T :=
  match nth_error l i with
  | Some x => Ok x
  | None => Err IndexError
  end.

(* ------------------------------------------------------------------ *)
(** ** The engine's collections *)

(** An RDD is the list of its partitions. *)
Definition RDD (T : Type) : Type := list (list T).

Definition collect {T : Type} (r : RDD T) : list T := List.concat r.

Fixpoint mapPartitionsWithIndex_from {T U : Type}
    (g : Z -> list T -> list U) (i : Z) (r : RDD T) : RDD U :=
  match r with
  | [] => []
  | part :: rest => g i part :: mapPartitionsWithIndex_from g (i + 1) rest
  end.

(** [rdd.mapPartitionsWithIndex(g)]: partition number i becomes [g i part]. *)
Definition mapPartitionsWithIndex {T U : Type}
    (g : Z -> list T -> list U) (r : RDD T) : RDD U :=
  mapPartitionsWithIndex_from g 0 r.

(** [rdd.flatMap(g)]: inside every partition. *)
Definition flatMap {T U : Type} (g : T -> list U) (r : RDD T) : RDD U :=
  map (flat_map g) r.

(* ------------------------------------------------------------------ *)
(** ** Stages 1 and 2 *)

(** [def f(splitIndex, v): return [(splitIndex, list(v))]] *)
Definition f {T : Type} (splitIndex : Z) (v : list T) : list (Z * list T) :=
  [(splitIndex, v)].

(** [stage1 = stage0.mapPartitionsWithIndex(lambda splitIndex, v: f(splitIndex, v))]
    where [stage0 = sc.parallelize(matrix, p)] is the engine's split of the
    matrix rows. *)
Definition stage1 {T : Type} (stage0 : RDD T) : RDD (Z * list T) :=
  mapPartitionsWithIndex (fun splitIndex v => f splitIndex v) stage0.

(** [def makePairParts(k, v, p):
       return [(str(sorted([k,l])), (k,v)) for l in range(0,p)]] *)
Definition makePairParts {V : Type} (k : Z) (v : V) (p : Z)
    : list (string * (Z * V)) :=
  map (fun l => (str_list (sorted [k; l]), (k, v))) (range 0 p).

(** [stage2 = stage1.flatMap(lambda (k,v): makePairParts(k, v, p))] *)
Definition stage2 {V : Type} (p : Z) (st1 : RDD (Z * V))
    : RDD (string * (Z * V)) :=
  flatMap (fun kv => makePairParts (fst kv) (snd kv) p) st1.

(** The key of the unordered pair {k,l}, as [makePairParts] builds it. *)
Definition PairKey (k l : Z) : string := str_list (sorted [k; l]).

(** The key of a record and the pair of indices it was made from. *)
Definition key_of (il : Z * Z) : string := PairKey (fst il) (snd il).

(** All records of stage 2, in collection order. *)
Definition records {T : Type} (p : Z) (stage0 : RDD T)
    : list (string * (Z * list T)) :=
  collect (stage2 p (stage1 stage0)).

(** The pairs (k,l) with 0 <= k <= l < n, row by row of the upper triangle. *)
Fixpoint tri (n : nat) : list (Z * Z) :=
  match n with
  | O => []
  | S m => tri m ++ map (fun i => (Z.of_nat i, Z.of_nat m)) (seq 0 (S m))
  end.

(** A string without a comma. *)
Fixpoint comma_free (s : string) : Prop :=
  match s with
  | EmptyString => True
  | String c t => c <> ","%char /\ comma_free t
  end.

Definition pair_eq_dec (x y : Z * Z) : {x = y} + {x <> y}.
Proof. decide equality; apply Z.eq_dec. Defined.

(** Number of records of a collected RDD that carry a given key. *)
Definition count_key {V : Type} (key : string) (recs : list (string * V)) : nat :=
  length (filter (fun r => String.eqb (fst r) key) recs).

(** The distinct keys of a collected RDD. *)
Definition distinct_keys {V : Type} (recs : list (string * V)) : list string :=
  nodup string_dec (map fst recs).

(* ------------------------------------------------------------------ *)
(** ** numpy arrays *)

Open Scope R_scope.

(** Result of a float division: finite, or one of the IEEE specials. *)
Inductive fval : Type :=
| Fin (r : R)
| PosInf
| NegInf
| NaN.

(** [x / y] with numpy's treatment of a zero divisor. *)
Definition np_div (x y : R) : fval :=
  if Req_dec_T y 0 then
    if Req_dec_T x 0 then NaN
    else if Rlt_dec 0 x then PosInf else NegInf
  else Fin (x / y).

(** One-dimensional array. *)
Record vec : Type := mkvec { len : nat; vat : nat -> R }.

(** Two-dimensional array of shape (nrows, ncols). *)
Record mat (T : Type) : Type :=
  mkmat { nrows : nat; ncols : nat; get : nat -> nat -> T }.
Arguments mkmat {T} nrows ncols get.
Arguments nrows {T} m.
Arguments ncols {T} m.
Arguments get {T} m i j.

Inductive array : Type :=
| Arr2 (m : mat R)   (* ndim = 2 *)
| ArrNot2D.          (* anything else: no axis 1 to reduce along *)

(** [g 0 + g 1 + ... + g (n-1)] *)
Fixpoint rsum (n : nat) (g : nat -> R) : R :=
  match n with
  | O => 0
  | S n' => rsum n' g + g n'
  end.

(** [np.array(rows)] for a Python list of one-dimensional row arrays: a 2-D
    array when the list is not empty and all rows have one length. *)
Definition np_array (rows : list (list R)) : array :=
  match rows with
  | [] => ArrNot2D
  | r0 :: rest =>
      if forallb (fun r => Nat.eqb (length r) (length r0)) rest
      then Arr2 (mkmat (length rows) (length r0)
                       (fun i j => nth j (nth i rows []) 0))
      else ArrNot2D
  end.

(** [A.mean(1)].  For a matrix with no column numpy gives NaN here; the model
    gives an unspecified real, which no entry of [A - A.mean(1)[:,None]] can
    use since that matrix has no column either. *)
Definition mean1 (A : mat R) : vec :=
  mkvec (nrows A) (fun i => rsum (ncols A) (fun t => get A i t) / INR (ncols A)).

(** [A - m[:,None]]: row i of A minus the i-th item of m. *)
Definition sub_col (A : mat R) (m : vec) : mat R :=
  mkmat (nrows A) (ncols A) (fun i j => get A i j - vat m i).

(** [A**2] *)
Definition msq (A : mat R) : mat R :=
  mkmat (nrows A) (ncols A) (fun i j => get A i j ^ 2).

(** [A.sum(1)] *)
Definition sum1 (A : mat R) : vec :=
  mkvec (nrows A) (fun i => rsum (ncols A) (fun t => get A i t)).

(** [A.T] *)
Definition transpose {T : Type} (A : mat T) : mat T :=
  mkmat (ncols A) (nrows A) (fun i j => get A j i).

(** [v[:,None]]: a column. *)
Definition col (v : vec) : mat R := mkmat (len v) 1 (fun i _ => vat v i).

(** [v[None]]: a row. *)
Definition row (v : vec) : mat R := mkmat 1 (len v) (fun _ j => vat v j).

(** [np.dot(A, B)] for 2-D arrays: the shape test, the exception and the
    shape of the result are numpy's; the entries are the exact sums of
    products (numpy accumulates them in float64, in an order of its own). *)
Definition dot (A B : mat R) : result (mat R) :=
  if Nat.eqb (ncols A) (nrows B)
  then Ok (mkmat (nrows A) (ncols B)
                 (fun i j => rsum (ncols A) (fun t => get A i t * get B t j)))
  else Err ValueError.

(** [np.sqrt(A)] *)
Definition msqrt (A : mat R) : mat R :=
  mkmat (nrows A) (ncols A) (fun i j => sqrt (get A i j)).

(** [A / B] for arrays of one shape. *)
Definition mdiv (A B : mat R) : mat fval :=
  mkmat (nrows A) (ncols A) (fun i j => np_div (get A i j) (get B i j)).

(* ------------------------------------------------------------------ *)
(** ** Stage 4 *)

(** [def corr2_coeff(A,B):
       A_mA = A - A.mean(1)[:,None]
       B_mB = B - B.mean(1)[:,None]
       ssA = (A_mA**2).sum(1);
       ssB = (B_mB**2).sum(1);
       return np.dot(A_mA,B_mB.T)/np.sqrt(np.dot(ssA[:,None],ssB[None]))]

    When it raises and the shape of what it returns are numpy's.  The
    entries are those of exact arithmetic, not the float64 values numpy
    returns (see the conventions at the head of the file). *)
Definition corr2_coeff (A B : array) : result (mat fval) :=
  match A, B with
  | Arr2 A, Arr2 B =>
      let A_mA := sub_col A (mean1 A) in
      let B_mB := sub_col B (mean1 B) in
      let ssA := sum1 (msq A_mA) in
      let ssB := sum1 (msq B_mB) in
      num <- dot A_mA (transpose B_mB) ;;
      den <- dot (col ssA) (row ssB) ;;
      Ok (mdiv num (msqrt den))
  | _, _ => Err AxisError
  end.

(** A block as stage 1 builds it: the Python list of the rows of one
    partition. *)
Definition block : Type := list (list R).

(** [def getCorrelation(k,v):
       pairBlock=list(v)
       pairBlock1=pairBlock[0][0]
       blockMatrix1=pairBlock[0][1]
       if (len(pairBlock)==1):
           blockMatrix2=pairBlock[0][1]
           k=(pairBlock[0][0],pairBlock[0][0])
       else:
           blockMatrix2=pairBlock[1][1]
           k=(pairBlock[0][0],pairBlock[1][0])
       corrB1B2=corr2_coeff(np.array(blockMatrix1),np.array(blockMatrix2))
       return (k,corrB1B2)] *)
Definition getCorrelation (k : string) (v : list (Z * block))
    : result ((Z * Z) * mat fval) :=
  let pairBlock := v in
  e0 <- index pairBlock 0 ;;
  let pairBlock1 := fst e0 in
  let blockMatrix1 := snd e0 in
  bk <- (if Nat.eqb (length pairBlock) 1
         then Ok (snd e0, (fst e0, fst e0))
         else e1 <- index pairBlock 1 ;;
              Ok (snd e1, (fst e0, fst e1))) ;;
  let blockMatrix2 := fst bk in
  let k := snd bk in
  corrB1B2 <- corr2_coeff (np_array blockMatrix1) (np_array blockMatrix2) ;;
  Ok (k, corrB1B2).

(* ------------------------------------------------------------------ *)
(** ** The sums of the Pearson formula over one row, in exact arithmetic *)

Definition lsum (x : list R) : R := fold_right Rplus 0 x.

Definition mean (x : list R) : R := lsum x / INR (length x).

Definition centered (x : list R) : list R := map (fun xi => xi - mean x) x.

(** Sum of (x_t - mean x)(y_t - mean y) over t. *)
Definition cov_sum (x y : list R) : R :=
  lsum (map (fun xy => fst xy * snd xy) (combine (centered x) (centered y))).

(** Sum of (x_t - mean x)^2 over t. *)
Definition ss (x : list R) : R := lsum (map (fun c => c ^ 2) (centered x)).

(** A block of [a] rows, each of [N] observations. *)
Definition is_block (a N : nat) (A : block) : Prop :=
  length A = a /\ Forall (fun r => length r = N) A.

(* ------------------------------------------------------------------ *)
(** ** Notions used to state properties of the stages *)

(** The values of the records that carry a key, in collection order: the
    group of that key when the shuffle keeps the order of stage 2. *)
Definition values_of_key {V : Type} (key : string) (recs : list (string * V))
    : list V :=
  map snd (filter (fun r => String.eqb (fst r) key) recs).

(** Number of records of stage 2 that carry block [i]. *)
Definition count_block {V : Type} (i : Z) (recs : list (string * (Z * V)))
    : nat :=
  length (filter (fun r => Z.eqb (fst (snd r)) i) recs).

(** Index pairs ordered by their first component. *)
Definition le_fst (x y : Z * Z) : Prop := (fst x <= fst y)%Z.

(* ================================================================== *)
(** * Pair keys *)

Section Keys.

Open Scope Z_scope.

Lemma string_app_assoc (s t u : string) :
  ((s ++ t) ++ u = s ++ (t ++ u))%string.
Proof. induction s as [| c s IH]; simpl; [reflexivity | now rewrite IH]. Qed.

Lemma string_app_length (s t : string) :
  String.length (s ++ t) = (String.length s + String.length t)%nat.
Proof. induction s as [| c s IH]; simpl; [reflexivity | now rewrite IH]. Qed.

Lemma sorted_pair (k l : Z) :
  sorted [k; l] = if k <=? l then [k; l] else [l; k].
Proof. reflexivity. Qed.

Lemma PairKey_unfold (k l : Z) :
  PairKey k l =
  ("[" ++ repr_int (Z.min k l) ++ ", " ++ repr_int (Z.max k l) ++ "]")%string.
Proof.
  unfold PairKey. rewrite sorted_pair.
  destruct (Z.leb_spec k l) as [H | H].
  - rewrite Z.min_l, Z.max_r by lia.
    unfold str_list. simpl join. now rewrite !string_app_assoc.
  - rewrite Z.min_r, Z.max_l by lia.
    unfold str_list. simpl join. now rewrite !string_app_assoc.
Qed.

Lemma comma_free_uint (d : Decimal.uint) :
  comma_free (NilEmpty.string_of_uint d).
Proof. induction d; simpl; auto; split; auto; discriminate. Qed.

Lemma comma_free_repr (z : Z) : comma_free (repr_int z).
Proof.
  unfold repr_int.
  destruct (Z.to_int z) as [d | d]; simpl.
  - destruct d; try apply (comma_free_uint (_ _)).
    simpl. split; [discriminate | exact I].
  - split; [discriminate |].
    destruct d; try apply (comma_free_uint (_ _)).
    simpl. split; [discriminate | exact I].
Qed.

(** Two comma-free prefixes followed by a comma split a string in one way. *)
Lemma split_at_comma (a a' r r' : string) :
  comma_free a -> comma_free a' ->
  (a ++ String "," r = a' ++ String "," r')%string ->
  a = a' /\ r = r'.
Proof.
  revert a'. induction a as [| c a IH]; intros [| c' a'] Ha Ha' E; simpl in *.
  - injection E as E. split; [reflexivity | assumption].
  - injection E as E1 E2. destruct Ha' as [Hc _]. congruence.
  - injection E as E1 E2. destruct Ha as [Hc _]. congruence.
  - injection E as E1 E2. destruct Ha as [_ Ha]. destruct Ha' as [_ Ha'].
    destruct (IH a' Ha Ha' E2) as [-> ->]. subst. split; reflexivity.
Qed.

Lemma append_inj_r (s s' t : string) :
  (s ++ t = s' ++ t)%string -> s = s'.
Proof.
  intros E.
  assert (L : String.length s = String.length s').
  { apply (f_equal String.length) in E.
    rewrite !string_app_length in E. lia. }
  revert s' E L. induction s as [| c s IH]; intros [| c' s'] E L;
    simpl in *; try discriminate; try reflexivity.
  injection E as -> E. f_equal. apply IH; [assumption | lia].
Qed.

Lemma to_uint_nonnil (p : positive) : Pos.to_uint p <> Decimal.Nil.
Proof.
  intros E.
  pose proof (DecimalPos.Unsigned.of_to p) as H.
  rewrite E in H. discriminate.
Qed.

Lemma repr_int_inj (a b : Z) : repr_int a = repr_int b -> a = b.
Proof.
  unfold repr_int. intros E.
  apply DecimalZ.to_int_inj.
  assert (N : forall z, Z.to_int z <> Decimal.Pos Decimal.Nil /\
                        Z.to_int z <> Decimal.Neg Decimal.Nil).
  { intros [| p | p]; simpl; split; try discriminate;
      intros H; injection H as H; exact (to_uint_nonnil _ H). }
  destruct (N a) as [Ha1 Ha2]. destruct (N b) as [Hb1 Hb2].
  pose proof (NilZero.isi _ Ha1 Ha2) as Ia.
  pose proof (NilZero.isi _ Hb1 Hb2) as Ib.
  rewrite E in Ia. congruence.
Qed.

(** The key determines its two sorted components. *)
Lemma key_components (a b a' b' : Z) :
  ("[" ++ repr_int a ++ ", " ++ repr_int b ++ "]" =
   "[" ++ repr_int a' ++ ", " ++ repr_int b' ++ "]")%string ->
  a = a' /\ b = b'.
Proof.
  intros E. simpl in E. injection E as E.
  change (", " ++ ?x)%string with (String "," (" " ++ x)) in E.
  apply split_at_comma in E; try apply comma_free_repr.
  destruct E as [Ea Eb]. simpl in Eb. injection Eb as Eb.
  apply append_inj_r in Eb.
  split; apply repr_int_inj; assumption.
Qed.

Lemma PairKey_sym (k l : Z) : PairKey k l = PairKey l k.
Proof. rewrite !PairKey_unfold, Z.min_comm, Z.max_comm. reflexivity. Qed.

Lemma PairKey_inj (k l k' l' : Z) :
  PairKey k l = PairKey k' l' ->
  (k = k' /\ l = l') \/ (k = l' /\ l = k').
Proof.
  rewrite !PairKey_unfold. intros E.
  apply key_components in E. lia.
Qed.

End Keys.

(* ================================================================== *)
(** * List counting tools *)

Section ListTools.

Lemma NoDup_map_on {A B : Type} (g : A -> B) (l : list A) :
  (forall x y, In x l -> In y l -> g x = g y -> x = y) ->
  NoDup l -> NoDup (map g l).
Proof.
  intros Hinj Hnd. induction Hnd as [| x l Hx Hnd IH]; simpl.
  - constructor.
  - constructor.
    + rewrite in_map_iff. intros [y [Hy Hin]].
      assert (y = x) by (apply Hinj; simpl; auto).
      subst. contradiction.
    + apply IH. intros a b Ha Hb. apply Hinj; simpl; auto.
Qed.

Lemma NoDup_prod {A B : Type} (l : list A) (l' : list B) :
  NoDup l -> NoDup l' -> NoDup (list_prod l l').
Proof.
  intros Hl Hl'. induction Hl as [| x l Hx Hl IH]; simpl.
  - constructor.
  - apply NoDup_app.
    + apply NoDup_map_on; [| assumption].
      intros a b _ _ E. now injection E.
    + assumption.
    + intros [a b] Hin Hin'.
      apply in_map_iff in Hin. destruct Hin as [y [E _]].
      injection E as <- _.
      apply in_prod_iff in Hin'. tauto.
Qed.

Lemma filter_map_length {A B : Type} (g : A -> B) (q : B -> bool) (l : list A) :
  length (filter q (map g l)) = length (filter (fun x => q (g x)) l).
Proof.
  induction l as [| x l IH]; simpl; [reflexivity |].
  destruct (q (g x)); simpl; now rewrite IH.
Qed.

(** In a duplicate-free list, a test that holds of exactly [a] and [b]
    selects one item when they coincide and two otherwise. *)
Lemma filter_two_length {A : Type} (eq_dec : forall x y : A, {x = y} + {x <> y})
    (q : A -> bool) (a b : A) (l : list A) :
  NoDup l -> In a l -> In b l ->
  (forall x, In x l -> (q x = true <-> x = a \/ x = b)) ->
  length (filter q l) = if eq_dec a b then 1%nat else 2%nat.
Proof.
  intros Hnd Ha Hb Hq.
  assert (Hf : NoDup (filter q l)) by now apply NoDup_filter.
  assert (Hin : forall x, In x (filter q l) <-> x = a \/ x = b).
  { intros x. rewrite filter_In. split.
    - intros [Hx Hqx]. now apply Hq.
    - intros Hx. assert (In x l) by (destruct Hx; subst; assumption).
      split; [assumption | now apply Hq]. }
  destruct (eq_dec a b) as [E | NE].
  - subst b.
    assert (P : Permutation (filter q l) [a]).
    { apply NoDup_Permutation; [assumption | repeat constructor; simpl; tauto |].
      intros x. rewrite Hin. simpl. intuition. }
    now rewrite (Permutation_length P).
  - assert (P : Permutation (filter q l) [a; b]).
    { apply NoDup_Permutation; [assumption | |].
      - repeat constructor; simpl; intuition.
      - intros x. rewrite Hin. simpl. intuition. }
    now rewrite (Permutation_length P).
Qed.

End ListTools.

(* ================================================================== *)
(** * Stage 2: the pair expander over all blocks *)

Section Expander.

Open Scope Z_scope.

Lemma range_In (p x : Z) : In x (range 0 p) <-> 0 <= x < p.
Proof.
  unfold range. rewrite in_map_iff. split.
  - intros [i [<- Hi]]. apply in_seq in Hi. lia.
  - intros H. exists (Z.to_nat x). split; [lia |].
    apply in_seq. lia.
Qed.

Lemma range_NoDup (p : Z) : NoDup (range 0 p).
Proof.
  unfold range. apply NoDup_map_on; [| apply seq_NoDup].
  intros x y _ _ E. lia.
Qed.

Lemma range_length (p : Z) : length (range 0 p) = Z.to_nat p.
Proof. unfold range. rewrite length_map, length_seq. f_equal. lia. Qed.

Context {T : Type}.

(** The block indices of stage 1, counted from [s]. *)
Lemma stage1_from_tags (s : Z) (stage0 : RDD T) :
  map fst (collect (mapPartitionsWithIndex_from
                      (fun splitIndex v => f splitIndex v) s stage0)) =
  map (fun i => s + Z.of_nat i) (seq 0 (length stage0)).
Proof.
  revert s. induction stage0 as [| part rest IH]; intros s; simpl.
  - reflexivity.
  - f_equal; [lia |].
    unfold collect in IH. rewrite IH, <- seq_shift, map_map.
    apply map_ext. intros i. lia.
Qed.

Lemma stage1_tags (stage0 : RDD T) :
  map fst (collect (stage1 stage0)) = range 0 (Z.of_nat (length stage0)).
Proof.
  unfold stage1, mapPartitionsWithIndex. rewrite stage1_from_tags.
  unfold range. now rewrite Z.sub_0_r, Nat2Z.id.
Qed.

Lemma collect_flatMap {U W : Type} (g : U -> list W) (r : RDD U) :
  collect (flatMap g r) = flat_map g (collect r).
Proof.
  unfold collect, flatMap. induction r as [| part rest IH]; simpl.
  - reflexivity.
  - now rewrite IH, flat_map_app.
Qed.

Lemma expand_keys {V : Type} (p : Z) (tagged : list (Z * V)) :
  map fst (flat_map (fun kv => makePairParts (fst kv) (snd kv) p) tagged) =
  map key_of (list_prod (map fst tagged) (range 0 p)).
Proof.
  induction tagged as [| [k v] rest IH]; simpl; [reflexivity |].
  rewrite !map_app, IH. f_equal.
  unfold makePairParts. rewrite !map_map. reflexivity.
Qed.

Lemma records_keys (p : Z) (stage0 : RDD T) :
  map fst (records p stage0) =
  map key_of (list_prod (range 0 (Z.of_nat (length stage0))) (range 0 p)).
Proof.
  unfold records, stage2. rewrite collect_flatMap, expand_keys, stage1_tags.
  reflexivity.
Qed.

Lemma records_origin (p : Z) (stage0 : RDD T) key i v :
  In (key, (i, v)) (records p stage0) ->
  In (i, v) (collect (stage1 stage0)) /\
  exists l, 0 <= l < p /\ key = PairKey i l.
Proof.
  unfold records, stage2. rewrite collect_flatMap, in_flat_map.
  intros [[k w] [Hblock Hin]]. simpl in Hin.
  unfold makePairParts in Hin. apply in_map_iff in Hin.
  destruct Hin as [l [E Hl]]. injection E as <- <- <-.
  split; [assumption |].
  exists l. split; [now apply range_In | reflexivity].
Qed.

(** The upper triangle of index pairs. *)

Lemma tri_In (n : nat) (k l : Z) :
  In (k, l) (tri n) <-> 0 <= k <= l /\ l < Z.of_nat n.
Proof.
  induction n as [| m IH].
  - simpl. lia.
  - cbn [tri]. rewrite in_app_iff, IH, in_map_iff. split.
    + intros [H | [i [E Hi]]]; [lia |].
      injection E as <- <-. apply in_seq in Hi. lia.
    + intros H. destruct (Z.eq_dec l (Z.of_nat m)) as [-> | NE].
      * right. exists (Z.to_nat k). split; [f_equal; lia |].
        apply in_seq. lia.
      * left. lia.
Qed.

Lemma tri_NoDup (n : nat) : NoDup (tri n).
Proof.
  induction n as [| m IH]; [constructor |].
  cbn [tri]. apply NoDup_app.
  - assumption.
  - apply NoDup_map_on; [| apply seq_NoDup].
    intros x y _ _ E. injection E as E. lia.
  - intros [k l] Hin Hin'. apply tri_In in Hin.
    apply in_map_iff in Hin'. destruct Hin' as [i [E _]].
    injection E as _ <-. lia.
Qed.

Lemma tri_length (n : nat) :
  (2 * length (tri n) = n * (n + 1))%nat.
Proof.
  induction n as [| m IH]; [reflexivity |].
  cbn [tri]. rewrite length_app, length_map, length_seq. lia.
Qed.

Lemma key_of_tri_inj (n : nat) (x y : Z * Z) :
  In x (tri n) -> In y (tri n) -> key_of x = key_of y -> x = y.
Proof.
  destruct x as [k l], y as [k' l']. rewrite !tri_In.
  unfold key_of; simpl. intros Hx Hy E.
  apply PairKey_inj in E. f_equal; lia.
Qed.

(** The keys of stage 2 are the keys of the upper triangle. *)
Lemma records_keys_tri (stage0 : RDD T) (key : string) :
  let n := length stage0 in
  In key (map fst (records (Z.of_nat n) stage0)) <->
  In key (map key_of (tri n)).
Proof.
  intros n. rewrite records_keys. fold n. rewrite !in_map_iff. split.
  - intros [[i l] [<- Hin]]. apply in_prod_iff in Hin.
    rewrite !range_In in Hin.
    exists (Z.min i l, Z.max i l). split.
    + unfold key_of; simpl.
      destruct (Z.le_ge_cases i l).
      * rewrite Z.min_l, Z.max_r by lia. reflexivity.
      * rewrite Z.min_r, Z.max_l by lia. apply PairKey_sym.
    + apply tri_In. lia.
  - intros [[i l] [<- Hin]]. apply tri_In in Hin.
    exists (i, l). split; [reflexivity |].
    apply in_prod_iff. rewrite !range_In. lia.
Qed.

Lemma distinct_keys_length (stage0 : RDD T) :
  let n := length stage0 in
  (2 * length (distinct_keys (records (Z.of_nat n) stage0)) = n * (n + 1))%nat.
Proof.
  intros n. rewrite <- tri_length.
  rewrite <- (length_map key_of (tri n)). f_equal.
  apply Permutation_length, NoDup_Permutation.
  - apply NoDup_nodup.
  - apply NoDup_map_on; [apply key_of_tri_inj | apply tri_NoDup].
  - intros key. unfold distinct_keys. rewrite nodup_In.
    apply records_keys_tri.
Qed.

Lemma count_key_pair (stage0 : RDD T) (k l : Z) :
  let p := Z.of_nat (length stage0) in
  0 <= k <= l /\ l < p ->
  count_key (PairKey k l) (records p stage0) =
  if k =? l then 1%nat else 2%nat.
Proof.
  intros p H. unfold count_key.
  rewrite <- (filter_map_length fst (fun s => String.eqb s (PairKey k l))).
  rewrite records_keys. fold p. rewrite filter_map_length.
  rewrite (filter_two_length pair_eq_dec _ (k, l) (l, k)).
  - destruct (pair_eq_dec (k, l) (l, k)) as [E | NE];
      destruct (Z.eqb_spec k l) as [E' | NE']; try reflexivity.
    + injection E as E _. contradiction.
    + subst. contradiction.
  - apply NoDup_prod; apply range_NoDup.
  - apply in_prod_iff. rewrite !range_In. lia.
  - apply in_prod_iff. rewrite !range_In. lia.
  - intros [i j] _. rewrite String.eqb_eq. unfold key_of; simpl. split.
    + intros E. apply PairKey_inj in E.
      destruct E as [[-> ->] | [-> ->]]; auto.
    + intros [E | E]; injection E as -> ->;
        [reflexivity | apply PairKey_sym].
Qed.

End Expander.

(** The keys and block indices of [stage2.collect()] recorded in the
    notebook (n = 6 rows, p = 3 partitions of two rows each). *)
Example stage2_collect_notebook :
  map (fun r => (fst r, fst (snd r)))
      (records 3 [[1%nat; 2%nat]; [3%nat; 4%nat]; [5%nat; 6%nat]]) =
  [("[0, 0]", 0%Z); ("[0, 1]", 0%Z); ("[0, 2]", 0%Z);
   ("[0, 1]", 1%Z); ("[1, 1]", 1%Z); ("[1, 2]", 1%Z);
   ("[0, 2]", 2%Z); ("[1, 2]", 2%Z); ("[2, 2]", 2%Z)].
Proof. reflexivity. Qed.

Example stage1_collect_notebook :
  collect (stage1 [[1%nat; 2%nat]; [3%nat; 4%nat]; [5%nat; 6%nat]]) =
  [(0%Z, [1%nat; 2%nat]); (1%Z, [3%nat; 4%nat]); (2%Z, [5%nat; 6%nat])].
Proof. reflexivity. Qed.

(** C1.  Run the pair expander [makePairParts] over the p blocks that stage 1
    made of the p partitions of the matrix.  The collected records carry
    exactly p(p+1)/2 distinct keys.  For every pair k <= l of block indices
    below p, the key of {k,l} is on exactly one record when k = l and on
    exactly two when k <> l, and every record with that key carries one of
    the blocks of stage 1, of index k or l. *)
Theorem expander_pair_keys {T : Type} (p : Z) (stage0 : RDD T) :
  Z.of_nat (length stage0) = p ->
  (Z.of_nat (length (distinct_keys (records p stage0))) = p * (p + 1) / 2)%Z /\
  (forall k l : Z, (0 <= k <= l /\ l < p)%Z ->
     count_key (PairKey k l) (records p stage0) =
       (if (k =? l)%Z then 1%nat else 2%nat) /\
     (forall key i v, In (key, (i, v)) (records p stage0) ->
        key = PairKey k l ->
        (i = k \/ i = l) /\ In (i, v) (collect (stage1 stage0)))).
Proof.
  intros <-. split; [| intros k l H; split].
  - pose proof (distinct_keys_length stage0) as L. cbv zeta in L.
    apply Z.div_unique_exact; lia.
  - now apply count_key_pair.
  - intros key i v Hin ->. apply records_origin in Hin.
    destruct Hin as [Hblock [l' [_ E]]]. apply PairKey_inj in E.
    split; [lia | assumption].
Qed.

Lemma expander_pair_keys_witness :
  let stage0 := [[1%nat; 2%nat]; [3%nat; 4%nat]; [5%nat; 6%nat]] in
  Z.of_nat (length stage0) = 3%Z /\
  Z.of_nat (length (distinct_keys (records 3 stage0))) = 6%Z /\
  count_key (PairKey 0 2) (records 3 stage0) = 2%nat /\
  count_key (PairKey 1 1) (records 3 stage0) = 1%nat.
Proof.
  intros stage0.
  destruct (expander_pair_keys 3 stage0 eq_refl) as [D C].
  split; [reflexivity |]. split; [exact D |]. split.
  - exact (proj1 (C 0 2 ltac:(lia)))%Z.
  - exact (proj1 (C 1 1 ltac:(lia)))%Z.
Defined.

(** C3.  The key [str(sorted([k,l]))] is symmetric in k and l, and two index
    pairs have the same key only when they are the same unordered pair. *)
Theorem pair_key_canonical (k l k' l' : Z) :
  PairKey k l = PairKey l k /\
  (PairKey k l = PairKey k' l' ->
   (k = k' /\ l = l') \/ (k = l' /\ l = k')).
Proof. split; [apply PairKey_sym | apply PairKey_inj]. Qed.

Lemma pair_key_canonical_witness :
  PairKey 0 2 = PairKey 2 0 /\
  ((0 = 2 /\ 2 = 0) \/ (0 = 0 /\ 2 = 2))%Z.
Proof.
  destruct (pair_key_canonical 0 2 2 0) as [Hsym Hinj].
  split; [exact Hsym | exact (Hinj eq_refl)].
Defined.

(* ================================================================== *)
(** * Stage 1 when there are more partitions than rows *)

Section Partitions.

Context {T : Type}.

Lemma empty_partition_tagged (s : Z) (stage0 : RDD T) :
  (length (collect stage0) < length stage0)%nat ->
  exists i : Z,
    (s <= i < s + Z.of_nat (length stage0))%Z /\
    In (i, []) (collect (mapPartitionsWithIndex_from
                           (fun splitIndex v => f splitIndex v) s stage0)).
Proof.
  revert s. unfold collect.
  induction stage0 as [| part rest IH]; intros s H; simpl in *.
  - lia.
  - destruct part as [| x part].
    + exists s. split; [lia | now left].
    + rewrite length_app in H. simpl in H.
      destruct (IH (s + 1)%Z ltac:(lia)) as [i [Hi Hin]].
      exists i. split; [lia | now right].
Qed.

Lemma stage1_length (stage0 : RDD T) :
  length (collect (stage1 stage0)) = length stage0.
Proof.
  rewrite <- (length_map fst), stage1_tags, range_length. lia.
Qed.

End Partitions.

(** C6, as the notebook has it.  When the engine splits a matrix of n rows
    into p > n partitions, the notebook neither lowers p nor fails: stage 1
    tags all p partitions, and at least one of the tagged blocks is empty. *)
Theorem stage1_passes_empty_block {T : Type} (p n : nat) (stage0 : RDD T) :
  length stage0 = p ->
  length (collect stage0) = n ->
  (n < p)%nat ->
  length (collect (stage1 stage0)) = p /\
  exists i : Z, (0 <= i < Z.of_nat p)%Z /\ In (i, []) (collect (stage1 stage0)).
Proof.
  intros Hp Hn Hlt. split.
  - now rewrite stage1_length.
  - subst p n. apply (empty_partition_tagged 0 stage0 Hlt).
Qed.

Lemma stage1_passes_empty_block_witness :
  let stage0 := [[]; [7%nat]; [8%nat]] in
  length (collect (stage1 stage0)) = 3%nat /\
  exists i : Z, (0 <= i < 3)%Z /\ In (i, []) (collect (stage1 stage0)).
Proof.
  intros stage0.
  apply (stage1_passes_empty_block 3 2 stage0); [reflexivity | reflexivity | lia].
Defined.

(** C6 fails on the notebook: two rows in three partitions.  No error is
    raised, three blocks reach stage 2 and block 0 is empty. *)
Lemma partitioner_empty_block_counterexample :
  let stage0 := [[]; [7%nat]; [8%nat]] in
  length (collect stage0) = 2%nat /\
  collect (stage1 stage0) = [(0%Z, []); (1%Z, [7%nat]); (2%Z, [8%nat])] /\
  length (records 3 stage0) = 9%nat.
Proof. repeat split. Qed.

(* ================================================================== *)
(** * Stage 4: which key, which operands *)

Section Correlator.

Lemma forallb_is_block (N : nat) (rows : list (list R)) :
  Forall (fun r => length r = N) rows ->
  forallb (fun r => Nat.eqb (length r) N) rows = true.
Proof.
  intros H. apply forallb_forall. intros r Hr.
  rewrite Forall_forall in H. apply Nat.eqb_eq. now apply H.
Qed.

(** A block with at least one row becomes a 2-D array. *)
Lemma np_array_block (a N : nat) (A : block) :
  is_block (S a) N A ->
  np_array A =
  Arr2 (mkmat (S a) N (fun i j => nth j (nth i A []) 0%R)).
Proof.
  intros [Hlen Hrows]. destruct A as [| r0 rest]; [discriminate |].
  inversion Hrows as [| ? ? Hr0 Hrest]; subst.
  unfold np_array. rewrite forallb_is_block by assumption.
  now rewrite Hlen.
Qed.

(** The kernel on two 2-D arrays with the same number of columns. *)
Lemma corr2_coeff_arr2 (A B : mat R) :
  ncols A = ncols B ->
  corr2_coeff (Arr2 A) (Arr2 B) =
  Ok (mkmat (nrows A) (nrows B)
       (fun i j =>
          np_div
            (rsum (ncols A)
               (fun t => (get A i t - vat (mean1 A) i) *
                         (get B j t - vat (mean1 B) j)))%R
            (sqrt (rsum 1
               (fun _ => vat (sum1 (msq (sub_col A (mean1 A)))) i *
                         vat (sum1 (msq (sub_col B (mean1 B)))) j)))%R)).
Proof.
  intros E. unfold corr2_coeff, dot. simpl.
  rewrite E, Nat.eqb_refl. reflexivity.
Qed.

Lemma corr2_coeff_blocks (a b N : nat) (A B : block) :
  is_block (S a) N A -> is_block (S b) N B ->
  exists C, corr2_coeff (np_array A) (np_array B) = Ok C /\
            nrows C = S a /\ ncols C = S b.
Proof.
  intros HA HB.
  rewrite (np_array_block a N A HA), (np_array_block b N B HB).
  rewrite corr2_coeff_arr2 by reflexivity.
  eexists. split; [reflexivity | split; reflexivity].
Qed.

Lemma getCorrelation_nil (k : string) :
  getCorrelation k [] = Err IndexError.
Proof. reflexivity. Qed.

Lemma getCorrelation_single (k : string) (i : Z) (M : block) :
  getCorrelation k [(i, M)] =
  (C <- corr2_coeff (np_array M) (np_array M) ;; Ok ((i, i), C)).
Proof. reflexivity. Qed.

Lemma getCorrelation_two (k : string) (i0 i1 : Z) (M0 M1 : block) rest :
  getCorrelation k ((i0, M0) :: (i1, M1) :: rest) =
  (C <- corr2_coeff (np_array M0) (np_array M1) ;; Ok ((i0, i1), C)).
Proof. reflexivity. Qed.

End Correlator.

(** C2, as the notebook has it.  For a group of two entries with block
    indices i0 and i1, delivered in that order, [getCorrelation] keys its
    result by (i0, i1), the delivered order, and correlates the first
    entry's block (rows) against the second's (columns).  The key is
    (min, max) exactly when the lower index was delivered first. *)
Theorem getCorrelation_key_in_delivered_order
    (k : string) (i0 i1 : Z) (M0 M1 : block) (a0 a1 N : nat) :
  is_block (S a0) N M0 -> is_block (S a1) N M1 ->
  exists C,
    getCorrelation k [(i0, M0); (i1, M1)] = Ok ((i0, i1), C) /\
    corr2_coeff (np_array M0) (np_array M1) = Ok C /\
    nrows C = S a0 /\ ncols C = S a1 /\
    ((i0, i1) = (Z.min i0 i1, Z.max i0 i1) <-> (i0 <= i1)%Z).
Proof.
  intros H0 H1.
  destruct (corr2_coeff_blocks a0 a1 N M0 M1 H0 H1) as [C [E [Hr Hc]]].
  exists C. rewrite getCorrelation_two, E. simpl.
  repeat split; try assumption.
  - intros H. injection H as H _. lia.
  - intros H. rewrite Z.min_l, Z.max_r by lia. reflexivity.
Qed.

Lemma getCorrelation_key_in_delivered_order_witness :
  exists C,
    getCorrelation "[0, 2]" [(2%Z, [[1; 2; 4]]); (0%Z, [[3; 5; 4]])]
      = Ok ((2%Z, 0%Z), C) /\
    corr2_coeff (np_array [[1; 2; 4]]) (np_array [[3; 5; 4]]) = Ok C /\
    nrows C = 1%nat /\ ncols C = 1%nat /\
    ((2, 0)%Z = (Z.min 2 0, Z.max 2 0) <-> (2 <= 0)%Z).
Proof.
  apply (getCorrelation_key_in_delivered_order "[0, 2]" 2 0 _ _ 0 0 3);
    split; try reflexivity; repeat constructor.
Defined.

(** C2 fails on the notebook: the group of key {0,2} delivered with block 2
    first is keyed (2, 0), which is not (min, max) = (0, 2). *)
Lemma getCorrelation_key_order_counterexample :
  exists C,
    getCorrelation "[0, 2]" [(2%Z, [[1; 2; 4]]); (0%Z, [[3; 5; 4]])]
      = Ok ((2%Z, 0%Z), C) /\
    (2%Z, 0%Z) <> (Z.min 2 0, Z.max 2 0).
Proof.
  rewrite getCorrelation_two.
  destruct (corr2_coeff_blocks 0 0 3 [[1; 2; 4]] [[3; 5; 4]]) as [C [E _]];
    try (split; [reflexivity | repeat constructor]).
  exists C. rewrite E. split; [reflexivity | discriminate].
Qed.

(** C7, as the notebook has it.  An empty group raises Python's IndexError
    at [pairBlock[0]]; entries after the second are never read, so a longer
    group gives what its first two entries give; two entries with one block
    index are correlated like any other two and keyed (i, i). *)
Theorem getCorrelation_unchecked_groups (k : string) :
  getCorrelation k [] = Err IndexError /\
  (forall e0 e1 rest,
     getCorrelation k (e0 :: e1 :: rest) = getCorrelation k [e0; e1]) /\
  (forall (i : Z) (M0 M1 : block) (a0 a1 N : nat),
     is_block (S a0) N M0 -> is_block (S a1) N M1 ->
     exists C, getCorrelation k [(i, M0); (i, M1)] = Ok ((i, i), C) /\
               nrows C = S a0 /\ ncols C = S a1).
Proof.
  split; [reflexivity | split].
  - intros [i0 M0] [i1 M1] rest. reflexivity.
  - intros i M0 M1 a0 a1 N H0 H1.
    destruct (corr2_coeff_blocks a0 a1 N M0 M1 H0 H1) as [C [E [Hr Hc]]].
    exists C. rewrite getCorrelation_two, E. simpl. auto.
Qed.

Lemma getCorrelation_unchecked_groups_witness :
  exists C,
    getCorrelation "[1, 1]" [(1%Z, [[1; 2; 4]]); (1%Z, [[3; 5; 4]])]
      = Ok ((1%Z, 1%Z), C) /\
    nrows C = 1%nat /\ ncols C = 1%nat.
Proof.
  apply (proj2 (proj2 (getCorrelation_unchecked_groups "[1, 1]")) 1%Z _ _ 0 0 3)%nat;
    split; try reflexivity; repeat constructor.
Defined.

(** C7 fails on the notebook: a group of three entries, two of them with
    block index 1, gives a result and no failure. *)
Lemma getCorrelation_malformed_group_counterexample :
  exists C,
    getCorrelation "[0, 1]"
      [(0%Z, [[1; 2; 4]]); (1%Z, [[3; 5; 4]]); (1%Z, [[2; 2; 9]])]
    = Ok ((0%Z, 1%Z), C).
Proof.
  rewrite getCorrelation_two.
  destruct (corr2_coeff_blocks 0 0 3 [[1; 2; 4]] [[3; 5; 4]]) as [C [E _]];
    try (split; [reflexivity | repeat constructor]).
  exists C. now rewrite E.
Qed.

(** C9.  [getCorrelation] never reads its key argument: the key of the
    result is rebuilt from the block indices inside the group. *)
Theorem getCorrelation_ignores_key (k1 k2 : string) (v : list (Z * block)) :
  getCorrelation k1 v = getCorrelation k2 v.
Proof. reflexivity. Qed.

(* ================================================================== *)
(** * Finite sums *)

Section Sums.

Open Scope R_scope.

Lemma rsum_ext (n : nat) (g h : nat -> R) :
  (forall t, (t < n)%nat -> g t = h t) -> rsum n g = rsum n h.
Proof.
  induction n as [| n IH]; intros H; simpl; [reflexivity |].
  rewrite IH, H by auto. reflexivity.
Qed.

Lemma rsum_shift (n : nat) (g : nat -> R) :
  rsum (S n) g = g 0%nat + rsum n (fun t => g (S t)).
Proof.
  induction n as [| n IH]; [simpl; ring |].
  change (rsum (S (S n)) g) with (rsum (S n) g + g (S n)).
  rewrite IH. simpl. ring.
Qed.

Lemma rsum_list (g : R -> R) (l : list R) :
  rsum (length l) (fun t => g (nth t l 0)) = lsum (map g l).
Proof.
  induction l as [| x l IH]; [reflexivity |].
  cbn [length]. rewrite rsum_shift. simpl. now rewrite IH.
Qed.

Lemma rsum_combine (h : R -> R -> R) (x y : list R) :
  length x = length y ->
  rsum (length x) (fun t => h (nth t x 0) (nth t y 0)) =
  lsum (map (fun xy => h (fst xy) (snd xy)) (combine x y)).
Proof.
  revert y. induction x as [| a x IH]; intros [| b y] E;
    try discriminate; [reflexivity |].
  cbn [length]. rewrite rsum_shift. simpl.
  rewrite IH by (simpl in E; lia). reflexivity.
Qed.

End Sums.

(* ================================================================== *)
(** * The entries of the kernel, in exact arithmetic *)

Section Kernel.

Open Scope R_scope.

Lemma combine_map2 {A B C D : Type} (g : A -> C) (h : B -> D)
    (x : list A) (y : list B) :
  combine (map g x) (map h y) =
  map (fun xy => (g (fst xy), h (snd xy))) (combine x y).
Proof.
  revert y. induction x as [| a x IH]; intros [| b y]; simpl;
    try reflexivity.
  now rewrite IH.
Qed.

(** The three sums of the specification as sums over the observations. *)
Lemma mean_rsum (x : list R) :
  rsum (length x) (fun t => nth t x 0) / INR (length x) = mean x.
Proof.
  unfold mean. rewrite (rsum_list (fun r => r)), map_id. reflexivity.
Qed.

Lemma cov_sum_rsum (x y : list R) :
  length x = length y ->
  cov_sum x y =
  rsum (length x) (fun t => (nth t x 0 - mean x) * (nth t y 0 - mean y)).
Proof.
  intros E. unfold cov_sum, centered.
  rewrite combine_map2, map_map. simpl.
  now rewrite (rsum_combine (fun a b => (a - mean x) * (b - mean y))).
Qed.

Lemma ss_rsum (x : list R) :
  ss x = rsum (length x) (fun t => (nth t x 0 - mean x) ^ 2).
Proof.
  unfold ss, centered. rewrite map_map.
  now rewrite (rsum_list (fun r => (r - mean x) ^ 2)).
Qed.

Lemma cov_sum_comm (x y : list R) :
  length x = length y -> cov_sum x y = cov_sum y x.
Proof.
  intros E. rewrite (cov_sum_rsum x y E), (cov_sum_rsum y x (eq_sym E)), E.
  apply rsum_ext. intros t _. ring.
Qed.

Lemma block_row_length (a N : nat) (A : block) (i : nat) :
  is_block a N A -> (i < a)%nat -> length (nth i A []) = N.
Proof.
  intros [Hlen Hrows] Hi. rewrite Forall_forall in Hrows.
  apply Hrows, nth_In. lia.
Qed.

(** Entry (i,j) of the kernel's result, for two blocks of one row length. *)
Lemma corr2_coeff_entries (a b N : nat) (A B : block) :
  is_block (S a) N A -> is_block (S b) N B ->
  exists C,
    corr2_coeff (np_array A) (np_array B) = Ok C /\
    nrows C = S a /\ ncols C = S b /\
    forall i j, (i < S a)%nat -> (j < S b)%nat ->
      get C i j =
      np_div (cov_sum (nth i A []) (nth j B []))
             (sqrt (ss (nth i A []) * ss (nth j B []))).
Proof.
  intros HA HB.
  rewrite (np_array_block a N A HA), (np_array_block b N B HB).
  rewrite corr2_coeff_arr2 by reflexivity.
  eexists. split; [reflexivity |]. split; [reflexivity |].
  split; [reflexivity |].
  intros i j Hi Hj. cbn -[np_div rsum pow].
  pose proof (block_row_length _ _ _ i HA Hi) as Lx.
  pose proof (block_row_length _ _ _ j HB Hj) as Ly.
  set (x := nth i A []) in *. set (y := nth j B []) in *.
  assert (Mx : rsum N (fun t => nth t x 0) / INR N = mean x)
    by (rewrite <- Lx; apply mean_rsum).
  assert (My : rsum N (fun t => nth t y 0) / INR N = mean y)
    by (rewrite <- Ly; apply mean_rsum).
  rewrite (cov_sum_rsum x y) by congruence.
  rewrite (ss_rsum x), (ss_rsum y), Lx, Ly, Mx, My.
  cbn [rsum]. rewrite Rplus_0_l. reflexivity.
Qed.

Lemma np_div_nan : np_div 0 0 = NaN.
Proof.
  unfold np_div. destruct (Req_dec_T 0 0) as [_ | H]; [reflexivity | now contradict H].
Qed.

End Kernel.

(* ================================================================== *)
(** * Fewer than two observations *)

Section FewObservations.

Open Scope R_scope.

(** With no observation or a single one, the centered row is zero. *)
Lemma ss_short (x : list R) : (length x < 2)%nat -> ss x = 0.
Proof.
  destruct x as [| x0 [| x1 x]]; simpl; intros H; try lia.
  - reflexivity.
  - unfold ss, centered, mean, lsum. simpl. field.
Qed.

Lemma cov_sum_short (x y : list R) :
  (length x < 2)%nat -> cov_sum x y = 0.
Proof.
  destruct x as [| x0 [| x1 x]]; simpl; intros H; try lia.
  - reflexivity.
  - assert (Z0 : centered [x0] = [0])
      by (unfold centered, mean, lsum; simpl; f_equal; field).
    unfold cov_sum. rewrite Z0.
    destruct y as [| y0 y]; [reflexivity |].
    unfold centered at 1. cbn [map combine lsum fold_right fst snd]. ring.
Qed.

End FewObservations.

(** C5, as the notebook has it.  With fewer than two observations per row
    the kernel raises nothing: [corr2_coeff] returns the a x b matrix whose
    entries are all NaN (0/0), and [getCorrelation] hands it on under the
    usual key. *)
Theorem corr2_coeff_few_observations_nan (a b N : nat) (A B : block) :
  (0 < a)%nat -> (0 < b)%nat ->
  is_block a N A -> is_block b N B ->
  (N < 2)%nat ->
  exists C,
    corr2_coeff (np_array A) (np_array B) = Ok C /\
    nrows C = a /\ ncols C = b /\
    (forall i j, (i < a)%nat -> (j < b)%nat -> get C i j = NaN) /\
    (forall k i0 i1,
       getCorrelation k [(i0, A); (i1, B)] = Ok ((i0, i1), C)).
Proof.
  intros Ha Hb HA HB HN.
  destruct a as [| a]; [lia |]. destruct b as [| b]; [lia |].
  destruct (corr2_coeff_entries a b N A B HA HB) as [C [E [Hr [Hc He]]]].
  exists C. repeat split; try assumption.
  - intros i j Hi Hj. rewrite He by assumption.
    pose proof (block_row_length _ _ _ i HA Hi) as Lx.
    rewrite cov_sum_short, (ss_short (nth i A [])) by lia.
    rewrite Rmult_0_l, sqrt_0. apply np_div_nan.
  - intros k i0 i1. rewrite getCorrelation_two, E. reflexivity.
Qed.

Lemma corr2_coeff_few_observations_nan_witness :
  let A := [[5]; [7]]%R in
  let B := [[2]]%R in
  exists C,
    corr2_coeff (np_array A) (np_array B) = Ok C /\
    nrows C = 2%nat /\ ncols C = 1%nat /\
    (forall i j, (i < 2)%nat -> (j < 1)%nat -> get C i j = NaN) /\
    (forall k i0 i1,
       getCorrelation k [(i0, A); (i1, B)] = Ok ((i0, i1), C)).
Proof.
  intros A B.
  apply (corr2_coeff_few_observations_nan 2 1 1 A B); try lia;
    (split; [reflexivity | repeat constructor]).
Defined.

(** C5 fails on the notebook: a block of one row with a single observation
    gives the 1 x 1 result NaN under key (0, 0), and no error. *)
Lemma getCorrelation_single_observation_counterexample :
  exists C,
    getCorrelation "[0, 0]" [(0%Z, [[5%R]])] = Ok ((0%Z, 0%Z), C) /\
    nrows C = 1%nat /\ ncols C = 1%nat /\ get C 0 0 = NaN.
Proof.
  rewrite getCorrelation_single.
  destruct (corr2_coeff_entries 0 0 1 [[5%R]] [[5%R]]) as [C [E [Hr [Hc He]]]];
    try (split; [reflexivity | repeat constructor]).
  exists C. rewrite E. repeat split; try assumption.
  rewrite He by lia. simpl nth.
  rewrite cov_sum_short, ss_short by (simpl; lia).
  rewrite Rmult_0_l, sqrt_0. apply np_div_nan.
Qed.

(* ================================================================== *)
(** * Stage 1 and stage 2 as wholes *)

Section Stages.

Open Scope Z_scope.

Context {T : Type}.

Lemma mapPartitionsWithIndex_from_length {U : Type}
    (g : Z -> list T -> list U) (s : Z) (r : RDD T) :
  length (mapPartitionsWithIndex_from g s r) = length r.
Proof.
  revert s. induction r as [| part rest IH]; intros s; simpl;
    [reflexivity | now rewrite IH].
Qed.

Lemma stage1_from_blocks (s : Z) (stage0 : RDD T) :
  map snd (collect (mapPartitionsWithIndex_from
                      (fun splitIndex v => f splitIndex v) s stage0)) = stage0.
Proof.
  revert s. unfold collect.
  induction stage0 as [| part rest IH]; intros s; simpl; [reflexivity |].
  now rewrite IH.
Qed.

Lemma stage1_from_partitions (s : Z) (stage0 : RDD T) :
  Forall (fun part => length part = 1%nat)
         (mapPartitionsWithIndex_from
            (fun splitIndex v => f splitIndex v) s stage0).
Proof.
  revert s. induction stage0 as [| part rest IH]; intros s; simpl;
    constructor; [reflexivity | apply IH].
Qed.

Lemma stage1_from_In (s : Z) (stage0 : RDD T) (i : Z) (v : list T) :
  In (i, v) (collect (mapPartitionsWithIndex_from
                        (fun splitIndex v => f splitIndex v) s stage0)) <->
  s <= i /\ nth_error stage0 (Z.to_nat (i - s)) = Some v.
Proof.
  revert s. unfold collect.
  induction stage0 as [| part rest IH]; intros s; simpl.
  - split; [tauto |]. intros [_ H]. now destruct (Z.to_nat (i - s)).
  - rewrite IH. split.
    + intros [E | [Hs Hn]].
      * injection E as <- <-. split; [lia |].
        now rewrite Z.sub_diag.
      * split; [lia |].
        replace (Z.to_nat (i - s)) with (S (Z.to_nat (i - (s + 1)))) by lia.
        exact Hn.
    + intros [Hs Hn]. destruct (Z.eq_dec i s) as [-> | NE].
      * left. rewrite Z.sub_diag in Hn. simpl in Hn. congruence.
      * right. split; [lia |].
        replace (Z.to_nat (i - s)) with (S (Z.to_nat (i - (s + 1)))) in Hn
          by lia.
        exact Hn.
Qed.

(** Block i of stage 1 is partition i of stage 0. *)
Lemma stage1_In (stage0 : RDD T) (i : Z) (v : list T) :
  In (i, v) (collect (stage1 stage0)) <->
  0 <= i /\ nth_error stage0 (Z.to_nat i) = Some v.
Proof.
  unfold stage1, mapPartitionsWithIndex. rewrite stage1_from_In.
  now rewrite Z.sub_0_r.
Qed.

End Stages.

(** X1.  Stage 1 keeps the engine's split as it is: the blocks are the
    partitions of stage 0 in their order, tagged 0, 1, ..., p-1, one block
    per partition; no row is lost, repeated or moved to another block. *)
Theorem stage1_blocks_are_partitions {T : Type} (stage0 : RDD T) :
  map snd (collect (stage1 stage0)) = stage0 /\
  map fst (collect (stage1 stage0)) = range 0 (Z.of_nat (length stage0)) /\
  List.concat (map snd (collect (stage1 stage0))) = collect stage0 /\
  length (stage1 stage0) = length stage0 /\
  Forall (fun part => length part = 1%nat) (stage1 stage0).
Proof.
  assert (B : map snd (collect (stage1 stage0)) = stage0)
    by apply stage1_from_blocks.
  split; [exact B |]. split; [apply stage1_tags |].
  split; [now rewrite B |]. split.
  - apply mapPartitionsWithIndex_from_length.
  - apply stage1_from_partitions.
Qed.

(* ================================================================== *)
(** * Stage 2: how often a block is sent, and in which order *)

Section Replication.

Open Scope Z_scope.

Lemma filter_map_comm {A B : Type} (g : A -> B) (q : B -> bool) (l : list A) :
  filter q (map g l) = map g (filter (fun x => q (g x)) l).
Proof.
  induction l as [| x l IH]; simpl; [reflexivity |].
  destruct (q (g x)); simpl; now rewrite IH.
Qed.

Lemma expand_index_pairs {V : Type} (p : Z) (tagged : list (Z * V)) :
  map (fun r => (fst r, fst (snd r)))
      (flat_map (fun kv => makePairParts (fst kv) (snd kv) p) tagged) =
  map (fun il => (key_of il, fst il)) (list_prod (map fst tagged) (range 0 p)).
Proof.
  induction tagged as [| [k v] rest IH]; simpl; [reflexivity |].
  rewrite !map_app, IH. f_equal.
  unfold makePairParts. rewrite !map_map. reflexivity.
Qed.

Lemma records_index_pairs {T : Type} (p : Z) (stage0 : RDD T) :
  map (fun r => (fst r, fst (snd r))) (records p stage0) =
  map (fun il => (key_of il, fst il))
      (list_prod (range 0 (Z.of_nat (length stage0))) (range 0 p)).
Proof.
  unfold records, stage2.
  rewrite collect_flatMap, expand_index_pairs, stage1_tags. reflexivity.
Qed.

Lemma filter_fst_row (i x : Z) (ls : list Z) :
  filter (fun il : Z * Z => fst il =? i) (map (fun y => (x, y)) ls) =
  if x =? i then map (fun y => (x, y)) ls else [].
Proof.
  induction ls as [| y ls IH]; simpl.
  - now destruct (x =? i).
  - rewrite IH. now destruct (x =? i).
Qed.

Lemma filter_fst_absent (i : Z) (ks ls : list Z) :
  ~ In i ks ->
  filter (fun il : Z * Z => fst il =? i) (list_prod ks ls) = [].
Proof.
  induction ks as [| z ks IH]; intros H; [reflexivity |].
  cbn [list_prod]. rewrite filter_app, IH by (simpl in H; tauto).
  rewrite filter_fst_row.
  destruct (Z.eqb_spec z i); [simpl in H; tauto | reflexivity].
Qed.

Lemma filter_fst_prod (i : Z) (ks ls : list Z) :
  NoDup ks -> In i ks ->
  length (filter (fun il : Z * Z => fst il =? i) (list_prod ks ls)) =
  length ls.
Proof.
  intros Hnd. induction Hnd as [| x ks Hx Hnd IH]; intros Hin;
    [destruct Hin |].
  cbn [list_prod]. rewrite filter_app, length_app, filter_fst_row.
  destruct (Z.eqb_spec x i) as [-> | NE].
  - rewrite length_map, filter_fst_absent by assumption. simpl. lia.
  - simpl. apply IH. destruct Hin; [contradiction | assumption].
Qed.

End Replication.

(** X2.  Stage 2 sends every block p times: over all blocks it emits
    (number of blocks) * p records, p of them for each block, and it keeps
    the partitions of stage 1.  With p <= 0 it emits nothing. *)
Theorem stage2_replicates_each_block {T : Type} (p : Z) (stage0 : RDD T) :
  length (records p stage0) = (length stage0 * Z.to_nat p)%nat /\
  length (stage2 p (stage1 stage0)) = length stage0 /\
  (forall i : Z, (0 <= i < Z.of_nat (length stage0))%Z ->
     count_block i (records p stage0) = Z.to_nat p).
Proof.
  split; [| split].
  - rewrite <- (length_map fst), records_keys, length_map, length_prod.
    rewrite !range_length. lia.
  - unfold stage2, flatMap, stage1, mapPartitionsWithIndex.
    now rewrite length_map, mapPartitionsWithIndex_from_length.
  - intros i Hi. unfold count_block.
    transitivity
      (length (filter (fun kr : string * Z => Z.eqb (snd kr) i)
                 (map (fun r => (fst r, fst (snd r))) (records p stage0)))).
    { now rewrite filter_map_length. }
    rewrite records_index_pairs, filter_map_length. simpl.
    rewrite filter_fst_prod.
    + apply range_length.
    + apply range_NoDup.
    + apply range_In. lia.
Qed.

Lemma stage2_replicates_each_block_witness :
  let stage0 := [[1%nat; 2%nat]; [3%nat]] in
  length (records 3 stage0) = 6%nat /\
  length (stage2 3 (stage1 stage0)) = 2%nat /\
  count_block 1 (records 3 stage0) = 3%nat.
Proof.
  intros stage0.
  destruct (stage2_replicates_each_block 3 stage0) as [L [P C]].
  split; [exact L |]. split; [exact P |].
  apply (C 1%Z). simpl. lia.
Defined.

(* ================================================================== *)
(** * The records of one key, in collection order *)

Section KeyOrder.

Open Scope Z_scope.

Lemma StronglySorted_app {A : Type} (ord : A -> A -> Prop) (l1 l2 : list A) :
  StronglySorted ord l1 -> StronglySorted ord l2 ->
  (forall x y, In x l1 -> In y l2 -> ord x y) ->
  StronglySorted ord (l1 ++ l2).
Proof.
  intros H1 H2 Hc. induction H1 as [| x l1 H1 IH Hx]; simpl; [assumption |].
  constructor.
  - apply IH. intros a b Ha Hb. apply Hc; simpl; auto.
  - apply Forall_app. split; [assumption |].
    apply Forall_forall. intros y Hy. apply Hc; simpl; auto.
Qed.

Lemma StronglySorted_filter {A : Type} (ord : A -> A -> Prop)
    (q : A -> bool) (l : list A) :
  StronglySorted ord l -> StronglySorted ord (filter q l).
Proof.
  intros H. induction H as [| x l H IH Hx]; simpl; [constructor |].
  destruct (q x); [| assumption].
  constructor; [assumption |].
  rewrite Forall_forall in *. intros y Hy.
  apply Hx. apply filter_In in Hy. tauto.
Qed.

Lemma range_from_sorted (s : Z) (a n : nat) :
  StronglySorted Z.lt (map (fun i => s + Z.of_nat i) (seq a n)).
Proof.
  revert a. induction n as [| n IH]; intros a; simpl; constructor.
  - apply IH.
  - apply Forall_forall. intros y Hy.
    apply in_map_iff in Hy. destruct Hy as [i [<- Hi]].
    apply in_seq in Hi. lia.
Qed.

Lemma row_sorted (x : Z) (ls : list Z) :
  StronglySorted le_fst (map (fun y => (x, y)) ls).
Proof.
  induction ls as [| y ls IH]; simpl; constructor; [assumption |].
  apply Forall_forall. intros z Hz.
  apply in_map_iff in Hz. destruct Hz as [w [<- _]].
  unfold le_fst. simpl. lia.
Qed.

Lemma prod_sorted (ks ls : list Z) :
  StronglySorted Z.lt ks -> StronglySorted le_fst (list_prod ks ls).
Proof.
  intros H. induction H as [| x ks H IH Hx]; [constructor |].
  cbn [list_prod]. apply StronglySorted_app.
  - apply row_sorted.
  - assumption.
  - intros a [b c] Ha Hb. apply in_map_iff in Ha. destruct Ha as [w [<- _]].
    apply in_prod_iff in Hb. destruct Hb as [Hb _].
    rewrite Forall_forall in Hx. specialize (Hx b Hb).
    unfold le_fst. simpl. lia.
Qed.

Lemma filter_two_perm {A : Type} (q : A -> bool) (a b : A) (l : list A) :
  NoDup l -> In a l -> In b l -> a <> b ->
  (forall x, In x l -> (q x = true <-> x = a \/ x = b)) ->
  Permutation [a; b] (filter q l).
Proof.
  intros Hnd Ha Hb NE Hq.
  apply NoDup_Permutation.
  - repeat constructor; simpl; intuition.
  - now apply NoDup_filter.
  - intros x. rewrite filter_In. simpl. split.
    + intros [<- | [<- | []]]; (split; [assumption | apply Hq; auto]).
    + intros [Hx Hqx]. apply Hq in Hqx; [| assumption]. intuition.
Qed.

Lemma filter_one_perm {A : Type} (q : A -> bool) (a : A) (l : list A) :
  NoDup l -> In a l ->
  (forall x, In x l -> (q x = true <-> x = a)) ->
  Permutation [a] (filter q l).
Proof.
  intros Hnd Ha Hq.
  apply NoDup_Permutation.
  - repeat constructor; simpl; intuition.
  - now apply NoDup_filter.
  - intros x. rewrite filter_In. simpl. split.
    + intros [<- | []]. split; [assumption | now apply Hq].
    + intros [Hx Hqx]. apply Hq in Hqx; [| assumption]. auto.
Qed.

(** The index pairs that give the key of {k,l}, in the order of stage 2. *)
Lemma key_pairs_in_order (n p k l : Z) :
  0 <= k <= l -> l < n -> l < p ->
  filter (fun il => String.eqb (key_of il) (PairKey k l))
         (list_prod (range 0 n) (range 0 p)) =
  if k =? l then [(k, l)] else [(k, l); (l, k)].
Proof.
  intros Hkl Hn Hp.
  assert (Hnd : NoDup (list_prod (range 0 n) (range 0 p)))
    by (apply NoDup_prod; apply range_NoDup).
  assert (Hq : forall x : Z * Z,
             String.eqb (key_of x) (PairKey k l) = true <->
             x = (k, l) \/ x = (l, k)).
  { intros [i j]. rewrite String.eqb_eq. unfold key_of; simpl. split.
    - intros E. apply PairKey_inj in E.
      destruct E as [[-> ->] | [-> ->]]; auto.
    - intros [E | E]; injection E as -> ->;
        [reflexivity | apply PairKey_sym]. }
  assert (Hin1 : In (k, l) (list_prod (range 0 n) (range 0 p)))
    by (apply in_prod_iff; rewrite !range_In; lia).
  assert (Hin2 : In (l, k) (list_prod (range 0 n) (range 0 p)))
    by (apply in_prod_iff; rewrite !range_In; lia).
  destruct (Z.eqb_spec k l) as [-> | NE].
  - apply Permutation_length_1_inv.
    apply filter_one_perm; try assumption.
    intros x _. rewrite Hq. tauto.
  - assert (P : Permutation [(k, l); (l, k)]
                  (filter (fun il => String.eqb (key_of il) (PairKey k l))
                          (list_prod (range 0 n) (range 0 p)))).
    { apply filter_two_perm; try assumption.
      - intros E. injection E as E _. contradiction.
      - intros x _. apply Hq. }
    apply Permutation_length_2_inv in P. destruct P as [P | P]; [exact P |].
    exfalso.
    assert (S : StronglySorted le_fst
                  (filter (fun il => String.eqb (key_of il) (PairKey k l))
                          (list_prod (range 0 n) (range 0 p)))).
    { apply StronglySorted_filter, prod_sorted. apply range_from_sorted. }
    rewrite P in S. inversion S as [| ? ? _ F]; subst.
    inversion F as [| ? ? Hle _]; subst. unfold le_fst in Hle. simpl in Hle. lia.
Qed.

End KeyOrder.

Lemma values_of_key_ordered {T : Type}
    (stage0 : RDD T) (k l : Z) (vk vl : list T) :
  (0 <= k <= l)%Z ->
  nth_error stage0 (Z.to_nat k) = Some vk ->
  nth_error stage0 (Z.to_nat l) = Some vl ->
  values_of_key (PairKey k l) (records (Z.of_nat (length stage0)) stage0) =
  if (k =? l)%Z then [(k, vk)] else [(k, vk); (l, vl)].
Proof.
  intros Hkl Hk Hl.
  set (p := Z.of_nat (length stage0)).
  assert (Hlp : (l < p)%Z).
  { assert (Z.to_nat l < length stage0)%nat
      by (apply nth_error_Some; congruence).
    unfold p. lia. }
  unfold values_of_key.
  set (L := filter (fun r => String.eqb (fst r) (PairKey k l))
                   (records p stage0)).
  (* keys and block indices of the selected records *)
  assert (HL : map (fun r => (fst r, fst (snd r))) L =
               map (fun il => (key_of il, fst il))
                   (if (k =? l)%Z then [(k, l)] else [(k, l); (l, k)])).
  { unfold L.
    transitivity
      (filter (fun kr : string * Z => String.eqb (fst kr) (PairKey k l))
              (map (fun r => (fst r, fst (snd r))) (records p stage0))).
    { now rewrite filter_map_comm. }
    rewrite records_index_pairs, filter_map_comm. fold p. simpl.
    f_equal. apply key_pairs_in_order; lia. }
  (* every selected record carries a block of stage 1 *)
  assert (Hblk : forall key i v, In (key, (i, v)) L ->
                   nth_error stage0 (Z.to_nat i) = Some v).
  { intros key i v Hin. unfold L in Hin. apply filter_In in Hin.
    destruct Hin as [Hin _]. apply records_origin in Hin.
    destruct Hin as [Hin _]. apply stage1_In in Hin. tauto. }
  destruct (Z.eqb_spec k l) as [E | NE].
  - destruct L as [| [key1 [i1 v1]] [| r2 L']]; try discriminate.
    simpl in HL. injection HL as _ Hi1. subst i1.
    specialize (Hblk key1 k v1 (or_introl eq_refl)).
    simpl. congruence.
  - destruct L as [| [key1 [i1 v1]] [| [key2 [i2 v2]] [| r3 L']]];
      try discriminate.
    simpl in HL. injection HL as _ Hi1 _ Hi2. subst i1 i2.
    pose proof (Hblk key1 k v1 (or_introl eq_refl)) as B1.
    pose proof (Hblk key2 l v2 (or_intror (or_introl eq_refl))) as B2.
    simpl. congruence.
Qed.

(** X3.  In the collected records of stage 2 the key of {k,l}, k < l, is
    first on the record of block k and then on the record of block l, each
    with its whole block; the key of {k,k} is on the one record of block k. *)
Theorem values_of_key_in_collection_order {T : Type}
    (stage0 : RDD T) (k l : Z) (vk vl : list T) :
  (0 <= k <= l)%Z ->
  nth_error stage0 (Z.to_nat k) = Some vk ->
  nth_error stage0 (Z.to_nat l) = Some vl ->
  values_of_key (PairKey k l) (records (Z.of_nat (length stage0)) stage0) =
  if (k =? l)%Z then [(k, vk)] else [(k, vk); (l, vl)].
Proof. intros Hkl Hk Hl. now apply values_of_key_ordered. Qed.

Lemma values_of_key_in_collection_order_witness :
  let stage0 := [[1%nat; 2%nat]; [3%nat; 4%nat]; [5%nat; 6%nat]] in
  values_of_key (PairKey 0 2) (records 3 stage0) =
  [(0%Z, [1%nat; 2%nat]); (2%Z, [5%nat; 6%nat])].
Proof.
  intros stage0.
  apply (values_of_key_in_collection_order stage0 0 2
           [1%nat; 2%nat] [5%nat; 6%nat]); [lia | reflexivity | reflexivity].
Defined.

(** X4.  Stages 2 and 4 together.  When the group of the key of {k,l},
    k <= l, reaches [getCorrelation] in collection order, the result is
    keyed (k, l), lower index first, and is the correlation of block k
    (rows) against block l (columns). *)
Theorem getCorrelation_on_collected_group
    (stage0 : RDD (list R)) (k l : Z) (Mk Ml : block) (a b N : nat) :
  (0 <= k <= l)%Z ->
  nth_error stage0 (Z.to_nat k) = Some Mk ->
  nth_error stage0 (Z.to_nat l) = Some Ml ->
  is_block (S a) N Mk -> is_block (S b) N Ml ->
  exists C,
    getCorrelation (PairKey k l)
      (values_of_key (PairKey k l)
         (records (Z.of_nat (length stage0)) stage0)) = Ok ((k, l), C) /\
    corr2_coeff (np_array Mk) (np_array Ml) = Ok C /\
    nrows C = S a /\ ncols C = S b.
Proof.
  intros Hkl Hk Hl HMk HMl.
  destruct (corr2_coeff_blocks a b N Mk Ml HMk HMl) as [C [E [Hr Hc]]].
  exists C.
  rewrite (values_of_key_ordered stage0 k l Mk Ml Hkl Hk Hl).
  destruct (Z.eqb_spec k l) as [Ekl | NE].
  - subst l. assert (Ml = Mk) by congruence. subst Ml.
    rewrite getCorrelation_single, E. simpl. auto.
  - rewrite getCorrelation_two, E. simpl. auto.
Qed.

Lemma getCorrelation_on_collected_group_witness :
  let stage0 := [[[1; 2; 3]]; [[0; 1; 0]]; [[4; 2; 0]; [1; 1; 5]]]%R in
  exists C,
    getCorrelation (PairKey 0 2)
      (values_of_key (PairKey 0 2) (records 3 stage0)) = Ok ((0%Z, 2%Z), C) /\
    corr2_coeff (np_array [[1; 2; 3]]%R) (np_array [[4; 2; 0]; [1; 1; 5]]%R)
      = Ok C /\
    nrows C = 1%nat /\ ncols C = 2%nat.
Proof.
  intros stage0.
  apply (getCorrelation_on_collected_group stage0 0 2 _ _ 0 1 3);
    try reflexivity; try lia;
    (split; [reflexivity | repeat constructor]).
Defined.

(* ================================================================== *)
(** * When the kernel fails *)

Section Failures.

Lemma np_array_2d_inv (M : block) (m : mat R) :
  np_array M = Arr2 m ->
  exists a, is_block (S a) (ncols m) M /\ nrows m = S a.
Proof.
  destruct M as [| r0 rest]; [discriminate |].
  unfold np_array.
  destruct (forallb (fun r => Nat.eqb (length r) (length r0)) rest) eqn:F;
    [| discriminate].
  intros E. injection E as <-. simpl.
  exists (length rest). split; [| reflexivity].
  split; [reflexivity |].
  constructor; [reflexivity |].
  apply Forall_forall. intros r Hr.
  rewrite forallb_forall in F. apply Nat.eqb_eq. now apply F.
Qed.

End Failures.

(** X5.  [corr2_coeff] returns a matrix exactly when both blocks have at
    least one row and all rows of both blocks have one and the same
    length. *)
Theorem corr2_coeff_succeeds_iff (A B : block) :
  (exists C, corr2_coeff (np_array A) (np_array B) = Ok C) <->
  (exists a b N, is_block (S a) N A /\ is_block (S b) N B).
Proof.
  split.
  - intros [C E].
    destruct (np_array A) as [mA |] eqn:EA; [| discriminate].
    destruct (np_array B) as [mB |] eqn:EB; [| discriminate].
    destruct (np_array_2d_inv A mA EA) as [a [HA _]].
    destruct (np_array_2d_inv B mB EB) as [b [HB _]].
    exists a, b, (ncols mA). split; [assumption |].
    unfold corr2_coeff, dot in E. simpl in E.
    destruct (Nat.eqb_spec (ncols mA) (ncols mB)) as [Ec | NEc];
      [| discriminate].
    now rewrite Ec.
  - intros [a [b [N [HA HB]]]].
    destruct (corr2_coeff_blocks a b N A B HA HB) as [C [E _]].
    now exists C.
Qed.

Lemma corr2_coeff_succeeds_iff_witness :
  exists C, corr2_coeff (np_array [[1; 2; 3]]%R) (np_array [[4; 2; 0]]%R) = Ok C.
Proof.
  apply (proj2 (corr2_coeff_succeeds_iff [[1; 2; 3]]%R [[4; 2; 0]]%R)).
  exists 0%nat, 0%nat, 3%nat.
  split; (split; [reflexivity | repeat constructor]).
Defined.

(** X6.  Two blocks that are both well formed but differ in the number of
    observations per row make [corr2_coeff] fail with ValueError (the shapes
    do not align in np.dot), and so does [getCorrelation] on a group made of
    them. *)
Theorem corr2_coeff_observation_mismatch
    (a b N N' : nat) (A B : block) :
  is_block (S a) N A -> is_block (S b) N' B -> N <> N' ->
  corr2_coeff (np_array A) (np_array B) = Err ValueError /\
  (forall k i0 i1 rest,
     getCorrelation k ((i0, A) :: (i1, B) :: rest) = Err ValueError).
Proof.
  intros HA HB NE.
  assert (E : corr2_coeff (np_array A) (np_array B) = Err ValueError).
  { rewrite (np_array_block a N A HA), (np_array_block b N' B HB).
    unfold corr2_coeff, dot. simpl.
    destruct (Nat.eqb_spec N N'); [contradiction | reflexivity]. }
  split; [exact E |].
  intros k i0 i1 rest. rewrite getCorrelation_two, E. reflexivity.
Qed.

Lemma corr2_coeff_observation_mismatch_witness :
  corr2_coeff (np_array [[1; 2; 3]]%R) (np_array [[4; 2]]%R) = Err ValueError /\
  (forall k i0 i1 rest,
     getCorrelation k ((i0, [[1; 2; 3]]%R) :: (i1, [[4; 2]]%R) :: rest)
     = Err ValueError).
Proof.
  apply (corr2_coeff_observation_mismatch 0 0 3 2);
    try (split; [reflexivity | repeat constructor]).
  discriminate.
Defined.

(** X7.  An empty block never gives a result: whether it is the only entry
    of a group, the first or the second, [getCorrelation] fails with
    AxisError (the reduction along axis 1 of an array that has none). *)
Theorem getCorrelation_empty_block
    (k : string) (i0 i1 : Z) (M : block) (rest : list (Z * block)) :
  getCorrelation k [(i0, [])] = Err AxisError /\
  getCorrelation k ((i0, []) :: (i1, M) :: rest) = Err AxisError /\
  getCorrelation k ((i0, M) :: (i1, []) :: rest) = Err AxisError.
Proof.
  split; [reflexivity | split; [reflexivity |]].
  rewrite getCorrelation_two. simpl.
  unfold corr2_coeff. now destruct (np_array M).
Qed.

(** X8.  Delivering the two entries of a group in the other order gives the
    swapped key and the transposed matrix: entry (r, c) of one result is
    entry (c, r) of the other. *)
Theorem getCorrelation_swapped_group
    (k : string) (i0 i1 : Z) (M0 M1 : block) (a0 a1 N : nat) :
  is_block (S a0) N M0 -> is_block (S a1) N M1 ->
  exists C C',
    getCorrelation k [(i0, M0); (i1, M1)] = Ok ((i0, i1), C) /\
    getCorrelation k [(i1, M1); (i0, M0)] = Ok ((i1, i0), C') /\
    nrows C' = ncols C /\ ncols C' = nrows C /\
    (forall r c, (r < S a0)%nat -> (c < S a1)%nat -> get C r c = get C' c r).
Proof.
  intros H0 H1.
  destruct (corr2_coeff_entries a0 a1 N M0 M1 H0 H1) as [C [E [Hr [Hc He]]]].
  destruct (corr2_coeff_entries a1 a0 N M1 M0 H1 H0) as [C' [E' [Hr' [Hc' He']]]].
  exists C, C'. rewrite !getCorrelation_two, E, E'. simpl.
  repeat split; try congruence.
  intros r c Hlr Hlc. rewrite He, He' by assumption.
  pose proof (block_row_length _ _ _ r H0 Hlr) as L0.
  pose proof (block_row_length _ _ _ c H1 Hlc) as L1.
  rewrite (cov_sum_comm (nth r M0 []) (nth c M1 [])) by congruence.
  now rewrite Rmult_comm.
Qed.

Lemma getCorrelation_swapped_group_witness :
  exists C C',
    getCorrelation "[0, 2]" [(0%Z, [[1; 2; 3]; [0; 1; 0]]%R); (2%Z, [[4; 2; 0]]%R)]
      = Ok ((0%Z, 2%Z), C) /\
    getCorrelation "[0, 2]" [(2%Z, [[4; 2; 0]]%R); (0%Z, [[1; 2; 3]; [0; 1; 0]]%R)]
      = Ok ((2%Z, 0%Z), C') /\
    nrows C' = ncols C /\ ncols C' = nrows C /\
    (forall r c, (r < 2)%nat -> (c < 1)%nat -> get C r c = get C' c r).
Proof.
  apply (getCorrelation_swapped_group "[0, 2]" 0 2 _ _ 1 0 3);
    (split; [reflexivity | repeat constructor]).
Defined.
